(** * versioned-parser: the registry of [src/index.ts], embedded and verified

    [createVersionedParser] captures an array of parse functions (newest
    first) and returns four closures over it: [parseLatest], [parseAny],
    [parseSpecific] and [getAllParseFns].  The embedding follows the
    TypeScript source statement by statement:

    - JavaScript data values are an inductive type [value]; every value can
      be thrown, so a call completes either normally or abruptly
      ([completion]);
    - parse functions are opaque: a function of their single argument that
      may act on an external world [W] and that returns or throws;
    - the array handed to [createVersionedParser] lives in a store and is
      reached through a reference, as in JavaScript: the registry keeps the
      caller's reference, it makes no copy;
    - the closures are computations in a state-and-exception monad [JS] in
      which, as in JavaScript, the effects performed before a [throw]
      survive it. *)

From Stdlib Require Import List String Ascii ZArith Lia Bool DecimalString.
Import ListNotations.

Local Open Scope string_scope.
Local Open Scope list_scope.

(** ** JavaScript values *)

(** The integers from [Number.MIN_SAFE_INTEGER] to [Number.MAX_SAFE_INTEGER]
    (magnitude at most 2^53 - 1): each is a Number, and renders as its
    decimal numeral. *)
Record safe_integer : Type := mk_safe_integer {
  integer : Z;
  integer_is_safe : (Z.abs integer <=? 9007199254740991)%Z = true
}.

(** The data values an [unknown] input or a thrown value can be.  Objects
    are plain objects (prototype [Object.prototype]) given by their own
    string-keyed data properties; [VError] is an instance of [Error] or of
    one of its native subclasses, given by its [name] and [message].
    [VNumber n] is the integer-valued Number [n], a safe integer; function
    values are not data and are kept apart (see [ParseFn]). *)
#[warnings="-register-all"]
Inductive value : Type :=
| VUndefined
| VNull
| VBoolean (b : bool)
| VNumber (n : safe_integer)
| VString (s : string)
| VSymbol (description : string)
| VArray (elements : list value)
| VObject (properties : list (string * value))
| VError (name message : string).

(** A completion record: normal completion with a value of type [A], or
    abrupt completion by [throw]. *)
Inductive completion (A : Type) : Type :=
| Normal (a : A)
| Throw (e : value).

Arguments Normal {A} a.
Arguments Throw {A} e.

Definition is_normal {A : Type} (c : completion A) : bool :=
  match c with Normal _ => true | Throw _ => false end.

(** [new Error(message)] and the [TypeError]s the engine itself throws (the
    wording of an engine's message is its own; V8's is used). *)
Definition new_Error (message : string) : value := VError "Error" message.
Definition TypeError (message : string) : value := VError "TypeError" message.

Definition has_own_property (key : string) (properties : list (string * value)) : bool :=
  existsb (fun kv => String.eqb (fst kv) key) properties.

(** The abstract operation ToString (ECMA-262, 7.1.17), which a template
    literal applies to each substitution.
    - A Symbol cannot be converted: TypeError.
    - An object goes through OrdinaryToPrimitive with hint string: its
      [toString] is called if callable, then its [valueOf].  A plain object
      inherits [Object.prototype.toString] and renders as [[object Object]];
      when an own data property shadows [toString] (as in the JSON text
      [{"toString": 1}]) that property is not callable, [valueOf] (own and
      not callable, or inherited and returning the object itself) yields no
      primitive, and the conversion throws a TypeError.
    - An array renders through [join(",")], where [undefined] and [null]
      elements render as the empty string.
    - An error renders as [name: message] ([Error.prototype.toString]). *)
Fixpoint ToString (v : value) : completion string :=
  match v with
  | VUndefined => Normal "undefined"
  | VNull => Normal "null"
  | VBoolean true => Normal "true"
  | VBoolean false => Normal "false"
  | VNumber n => Normal (NilZero.string_of_int (Z.to_int (integer n)))
  | VString s => Normal s
  | VSymbol _ => Throw (TypeError "Cannot convert a Symbol value to a string")
  | VArray elements =>
      (fix join (first : bool) (es : list value) : completion string :=
         match es with
         | [] => Normal ""
         | e :: rest =>
             let next :=
               match e with
               | VUndefined | VNull => Normal ""
               | _ => ToString e
               end in
             match next with
             | Throw x => Throw x
             | Normal here =>
                 match join false rest with
                 | Throw x => Throw x
                 | Normal there =>
                     Normal ((if first then "" else ",") ++ here ++ there)%string
                 end
             end
         end) true elements
  | VObject properties =>
      if has_own_property "toString" properties
      then Throw (TypeError "Cannot convert object to primitive value")
      else Normal "[object Object]"
  | VError name message =>
      Normal (if String.eqb name "" then message
              else if String.eqb message "" then name
              else name ++ ": " ++ message)%string
  end.

(** References to array objects. *)
Definition loc : Type := nat.

(** ** The registry *)

Section Registry.

(** Whatever the parse functions may read and write outside the registry. *)
Variable W : Type.

(** [type ParseFn<T = unknown> = (input: unknown) => T]: one argument, and
    either a returned value or a thrown one.  The function is opaque and
    self-contained: its effects are on [W], it holds no reference to the
    registry's array.  Its type gives it no receiver: what it would read of
    [this] (the array under [versions[i](input)], [undefined] under
    [version(input)]) is not part of the model, and every statement below
    is about one way of calling at a time. *)
Definition ParseFn : Type := value -> W -> completion value * W.

(** The store: the array objects (every reference is live and holds an
    array of parse functions) and the outside world. *)
Record store : Type := mkStore {
  heap : loc -> list ParseFn;
  world : W
}.

(** Computations: state passing, with a completion as result.  The store
    reached when a computation throws is kept. *)
Definition JS (A : Type) : Type := store -> completion A * store.

Definition ret {A : Type} (a : A) : JS A :=
  fun s => (Normal a, s).

Definition throw {A : Type} (e : value) : JS A :=
  fun s => (Throw e, s).

Definition bind {A B : Type} (m : JS A) (k : A -> JS B) : JS B :=
  fun s =>
    match m s with
    | (Normal a, s') => k a s'
    | (Throw e, s') => (Throw e, s')
    end.

(** [try { body } catch (e) { handler }] *)
Definition try_catch {A : Type} (body : JS A) (handler : value -> JS A) : JS A :=
  fun s =>
    match body s with
    | (Normal a, s') => (Normal a, s')
    | (Throw e, s') => handler e s'
    end.

(** A pure abstract operation used as a computation. *)
Definition lift {A : Type} (c : completion A) : JS A :=
  fun s => (c, s).

(** Reading the array a reference points to. *)
Definition read (l : loc) : JS (list ParseFn) :=
  fun s => (Normal (heap s l), s).

(** [f(input)] for a parse function [f]. *)
Definition call (f : ParseFn) (input : value) : JS value :=
  fun s =>
    let (c, w) := f input (world s) in
    (c, mkStore (heap s) w).

(** [arr[i]] for a Number [i]: the element when [i] is an index of the
    array, [undefined] (here [None]) otherwise. *)
Definition element (arr : list ParseFn) (i : Z) : option ParseFn :=
  if (0 <=? i)%Z then nth_error arr (Z.to_nat i) else None.

(** [callee(input)] where the callee was obtained by indexing: calling
    [undefined] throws a TypeError, before anything else happens. *)
Definition invoke (callee : option ParseFn) (input : value) (text : string)
  : JS value :=
  match callee with
  | Some f => call f input
  | None => throw (TypeError (text ++ " is not a function"))
  end.

End Registry.

Arguments mkStore {W} heap world.
Arguments heap {W} s l.
Arguments world {W} s.
Arguments ret {W A} a s.
Arguments throw {W A} e s.
Arguments bind {W A B} m k s.
Arguments try_catch {W A} body handler s.
Arguments lift {W A} c s.
Arguments read {W} l s.
Arguments call {W} f input s.
Arguments element {W} arr i.
Arguments invoke {W} callee input text s.

Declare Scope js_scope.
Delimit Scope js_scope with js.
Notation "x <- m ;; k" := (bind m (fun x => k))
  (at level 100, m at next level, right associativity) : js_scope.

Section VersionedParser.

Variable W : Type.

(** [type Parser<ParseFns>]: the object [createVersionedParser] returns. *)
Record Parser : Type := mkParser {
  parseLatest : value -> JS W value;
  parseAny : value -> JS W value;
  parseSpecific : Z -> value -> JS W value;
  getAllParseFns : JS W loc
}.

(** The loop of [parseAny],
    [for (const version of versions) { try { return version(input) } catch (e) { continue } }]:
    [Some parsed] when the loop is left by [return parsed], [None] when
    the array is exhausted.  No parse function can reach the array, so the
    iteration runs over the array as read when the loop starts. *)
Fixpoint for_of_versions (versions : list (ParseFn W)) (input : value)
  : JS W (option value) :=
  match versions with
  | [] => ret None
  | version :: rest =>
      try_catch
        (parsed <- call version input ;; ret (Some parsed))%js
        (fun _ => for_of_versions rest input)
  end.

(** The statement after the loop,
    [throw new Error(`Failed to parse metadata (no version matched): ${input}`)]. *)
Definition throw_no_match {A : Type} (input : value) : JS W A :=
  (rendered <- lift (ToString input) ;;
   throw (new_Error ("Failed to parse metadata (no version matched): " ++ rendered)))%js.

Definition createVersionedParser (versions : loc) : Parser :=
  {| parseLatest := fun input =>
       (arr <- read versions ;;
        invoke (element arr 0) input "versions[0]")%js;
     parseAny := fun input =>
       (arr <- read versions ;;
        returned <- for_of_versions arr input ;;
        match returned with
        | Some parsed => ret parsed
        | None => throw_no_match input
        end)%js;
     parseSpecific := fun versionIndex input =>
       (arr <- read versions ;;
        invoke (element arr versionIndex) input "versions[versionIndex]")%js;
     getAllParseFns := ret versions |}.

End VersionedParser.

Arguments parseLatest {W} p input s.
Arguments parseAny {W} p input s.
Arguments parseSpecific {W} p versionIndex input s.
Arguments getAllParseFns {W} p s.
Arguments for_of_versions {W} versions input s.
Arguments throw_no_match {W A} input s.
Arguments createVersionedParser {W} versions.

(** ** What the caller can observe of a scan *)

Section Scan.

Variable W : Type.

(** The world after every function of [fs] was called on [input], one
    after the other, whatever each call did. *)
Fixpoint attempts (fs : list (ParseFn W)) (input : value) (w : W) : W :=
  match fs with
  | [] => w
  | f :: rest => attempts rest input (snd (f input w))
  end.

(** Every function of [fs], called in turn on [input], throws. *)
Fixpoint all_reject (fs : list (ParseFn W)) (input : value) (w : W) : bool :=
  match fs with
  | [] => true
  | f :: rest =>
      negb (is_normal (fst (f input w)))
      && all_reject rest input (snd (f input w))
  end.

(** The function at index [i] returns when it is called on [input] after
    the functions before it were. *)
Definition accepts_at (fs : list (ParseFn W)) (input : value) (w : W) (i : nat)
  : bool :=
  match nth_error fs i with
  | Some f => is_normal (fst (f input (attempts (firstn i fs) input w)))
  | None => false
  end.

(** A caller that still holds the reference it passed to
    [createVersionedParser] writes to the array (any of [push], [pop],
    [arr[i] = f], [arr.length = n]). *)
Definition caller_writes (l : loc) (arr : list (ParseFn W)) : JS W unit :=
  fun s =>
    (Normal tt,
     mkStore (fun l' => if Nat.eqb l' l then arr else heap s l') (world s)).

(** The calls a caller can make on a parser, and what each yields. *)
Inductive operation : Type :=
| CallParseLatest (input : value)
| CallParseAny (input : value)
| CallParseSpecific (versionIndex : Z) (input : value)
| CallGetAllParseFns.

Inductive observation : Type :=
| Parsed (c : completion value)
| Listed (c : completion loc).

Definition perform (p : Parser W) (o : operation) (s : store W)
  : observation * store W :=
  match o with
  | CallParseLatest input =>
      let (c, s') := parseLatest p input s in (Parsed c, s')
  | CallParseAny input =>
      let (c, s') := parseAny p input s in (Parsed c, s')
  | CallParseSpecific versionIndex input =>
      let (c, s') := parseSpecific p versionIndex input s in (Parsed c, s')
  | CallGetAllParseFns =>
      let (c, s') := getAllParseFns p s in (Listed c, s')
  end.

(** A sequence of calls, the store of each being the one the previous
    call left. *)
Fixpoint run (p : Parser W) (ops : list operation) (s : store W)
  : list observation * store W :=
  match ops with
  | [] => ([], s)
  | o :: rest =>
      let (seen, s') := perform p o s in
      let (later, s'') := run p rest s' in
      (seen :: later, s'')
  end.

End Scan.

Arguments attempts {W} fs input w.
Arguments all_reject {W} fs input w.
Arguments accepts_at {W} fs input w i.
Arguments caller_writes {W} l arr s.
Arguments perform {W} p o s.
Arguments run {W} p ops s.

(** ** The index type of [SpecificVersion] ([src/types.ts])

    Literal number types are natural numbers, a union of them is the list of
    its members.  The compiler unfolds a recursive conditional type up to a
    bounded depth and gives up beyond it; [depth] is that bound and [None]
    the compiler's refusal. *)

(** [type Enumerate<N, Acc = []> =
       Acc['length'] extends N ? Acc[number] : Enumerate<N, [...Acc, Acc['length']]>] *)
Fixpoint Enumerate (depth : nat) (N : nat) (Acc : list nat) : option (list nat) :=
  match depth with
  | O => None
  | S depth' =>
      if Nat.eqb (List.length Acc) N then Some Acc
      else Enumerate depth' N (Acc ++ [List.length Acc])
  end.

(** [Exclude<T, U>]: the members of [T] that are not members of [U]. *)
Definition Exclude (T U : list nat) : list nat :=
  filter (fun t => negb (existsb (Nat.eqb t) U)) T.

(** [type IntRange<F, T> = Exclude<Enumerate<T>, Enumerate<F>>] *)
Definition IntRange (depth : nat) (F T : nat) : option (list nat) :=
  match Enumerate depth T [], Enumerate depth F [] with
  | Some t, Some f => Some (Exclude t f)
  | _, _ => None
  end.

(** The bound of [VI] in [SpecificVersion<PT, VI>]:
    [IntRange<0, ReturnType<PT['getAllParseFns']>['length']>]. *)
Definition SpecificVersion_index {A : Type} (depth : nat) (versions : list A)
  : option (list nat) :=
  IntRange depth 0 (List.length versions).

(** What bounds a type parameter that stands for an index: [number], or a
    union of number literals (the empty union is [never]). *)
Inductive index_bound : Type :=
| Bnumber
| Bliterals (members : list nat).

(** [n extends bound] for the literal type of the number [n]. *)
Definition literal_extends (n : Z) (bound : index_bound) : bool :=
  match bound with
  | Bnumber => true
  | Bliterals members =>
      (0 <=? n)%Z && existsb (Nat.eqb (Z.to_nat n)) members
  end.

(** [parseSpecific: <VN extends number>(versionIndex: VN, input: unknown) => ...]
    ([src/types.ts], in [Parser], and [src/index.ts]): the bound of [VN]. *)
Definition parseSpecific_VN : index_bound := Bnumber.

(** [SpecificVersion<PT, VI extends IntRange<0, ...['length']>>]: the bound
    of [VI]. *)
Definition SpecificVersion_VI {A : Type} (depth : nat) (versions : list A)
  : option index_bound :=
  option_map Bliterals (SpecificVersion_index depth versions).

(** ** A three-version registry

    As in the README, three versions of one schema, each adding a mandatory
    key to the one before ([a], then [b], then [c]); the world is the log of
    the versions that were called. *)

Definition requires (version : string) (keys : list string) : ParseFn (list string) :=
  fun input log =>
    let log' := log ++ [version] in
    match input with
    | VObject properties =>
        if forallb (fun k => has_own_property k properties) keys
        then (Normal input, log')
        else (Throw (VError "ZodError" "Required"), log')
    | _ => (Throw (VError "ZodError" "Expected object"), log')
    end.

Definition V1 : ParseFn (list string) := requires "V1" ["a"].
Definition V2 : ParseFn (list string) := requires "V2" ["a"; "b"].
Definition V3 : ParseFn (list string) := requires "V3" ["a"; "b"; "c"].

(** A version that accepts everything and returns [undefined]. *)
Definition returns_undefined : ParseFn (list string) :=
  fun _ log => (Normal VUndefined, log ++ ["returns_undefined"]).

(** A version with a programming error: it throws a ReferenceError. *)
Definition broken : ParseFn (list string) :=
  fun _ log => (Throw (VError "ReferenceError" "schema is not defined"),
                log ++ ["broken"]).

(** A store in which reference 0 is the array [arr] and the log is empty. *)
Definition with_versions (arr : list (ParseFn (list string))) : store (list string) :=
  mkStore (fun l => match l with O => arr | S _ => [] end) [].

Definition one : value := VNumber (mk_safe_integer 1 eq_refl).
Definition two : value := VNumber (mk_safe_integer 2 eq_refl).
Definition three : value := VNumber (mk_safe_integer 3 eq_refl).
Definition minus_two : value := VNumber (mk_safe_integer (-2) eq_refl).

Definition abc : value := VObject [("a", one); ("b", two); ("c", three)].
Definition ab : value := VObject [("a", one); ("b", two)].
Definition a_only : value := VObject [("a", one)].
Definition empty_object : value := VObject [].

(** [JSON.parse('{"toString": 1}')] *)
Definition shadows_toString : value := VObject [("toString", one)].

(** The same three versions without the log: they act on nothing. *)
Definition checks (keys : list string) : ParseFn (list string) :=
  fun input w =>
    match input with
    | VObject properties =>
        if forallb (fun k => has_own_property k properties) keys
        then (Normal input, w)
        else (Throw (VError "ZodError" "Required"), w)
    | _ => (Throw (VError "ZodError" "Expected object"), w)
    end.

Definition C1only : ParseFn (list string) := checks ["a"].
Definition C2only : ParseFn (list string) := checks ["a"; "b"].
Definition C3only : ParseFn (list string) := checks ["a"; "b"; "c"].

(** ** The three-version registry, run *)

Example latest_accepts_abc :
  fst (parseLatest (createVersionedParser 0) abc (with_versions [V3; V2; V1]))
  = Normal abc.
Proof. reflexivity. Qed.

Example latest_rejects_ab :
  fst (parseLatest (createVersionedParser 0) ab (with_versions [V3; V2; V1]))
  = Throw (VError "ZodError" "Required").
Proof. reflexivity. Qed.

Example any_accepts_ab_through_V2 :
  let (c, s) := parseAny (createVersionedParser 0) ab (with_versions [V3; V2; V1]) in
  c = Normal ab /\ world s = ["V3"; "V2"].
Proof. split; reflexivity. Qed.

Example any_rejects_empty_object :
  let (c, s) :=
    parseAny (createVersionedParser 0) empty_object (with_versions [V3; V2; V1]) in
  c = Throw (new_Error "Failed to parse metadata (no version matched): [object Object]")
  /\ world s = ["V3"; "V2"; "V1"].
Proof. split; reflexivity. Qed.

Example specific_1_rejects_a_only :
  fst (parseSpecific (createVersionedParser 0) 1 a_only (with_versions [V3; V2; V1]))
  = Throw (VError "ZodError" "Required").
Proof. reflexivity. Qed.

Example specific_2_accepts_a_only :
  fst (parseSpecific (createVersionedParser 0) 2 a_only (with_versions [V3; V2; V1]))
  = Normal a_only.
Proof. reflexivity. Qed.

Example render_nested_array :
  ToString (VArray [one; VNull; VString "x"; VArray [minus_two; VUndefined]])
  = Normal "1,,x,-2,".
Proof. reflexivity. Qed.

Example index_range_of_three : IntRange 10 0 3 = Some [0; 1; 2].
Proof. reflexivity. Qed.

(** ** Properties of the scan *)

Section Properties.

Context {W : Type}.

Implicit Types (s : store W) (f : ParseFn W) (input : value) (versions : loc).

(** A store is its two fields. *)
Lemma store_eta s : mkStore (heap s) (world s) = s.
Proof. destruct s; reflexivity. Qed.

(** What a call does to the store: the array objects stay. *)
Lemma call_spec f input s :
  call f input s
  = (fst (f input (world s)), mkStore (heap s) (snd (f input (world s)))).
Proof. unfold call. destruct (f input (world s)); reflexivity. Qed.

(** One turn of the loop, when the version at hand returns. *)
Lemma for_of_versions_return f rest input s v w :
  f input (world s) = (Normal v, w) ->
  for_of_versions (f :: rest) input s = (Normal (Some v), mkStore (heap s) w).
Proof.
  intros Hf. cbn [for_of_versions]. unfold try_catch, bind, ret.
  rewrite call_spec, Hf. reflexivity.
Qed.

(** One turn of the loop, when the version at hand throws: whatever was
    thrown, the loop goes on with the next version, in the store the
    failed call left. *)
Lemma for_of_versions_continue f rest input s e w :
  f input (world s) = (Throw e, w) ->
  for_of_versions (f :: rest) input s
  = for_of_versions rest input (mkStore (heap s) w).
Proof.
  intros Hf. cbn [for_of_versions]. unfold try_catch, bind, ret.
  rewrite call_spec, Hf. reflexivity.
Qed.

(** The loop skips a prefix of versions that all throw. *)
Lemma for_of_versions_skip pre : forall rest input s,
  all_reject pre input (world s) = true ->
  for_of_versions (pre ++ rest) input s
  = for_of_versions rest input
      (mkStore (heap s) (attempts pre input (world s))).
Proof.
  induction pre as [|f pre IH]; intros rest input s Hrej.
  - cbn. now rewrite store_eta.
  - cbn [all_reject] in Hrej. apply andb_true_iff in Hrej as [Hf Hpre].
    destruct (f input (world s)) as [[v|e] w] eqn:Ef; [discriminate|].
    cbn [fst snd] in *. rewrite <- app_comm_cons.
    rewrite (for_of_versions_continue f _ input s e w Ef).
    rewrite IH by exact Hpre. cbn [attempts heap world]. now rewrite Ef.
Qed.

(** The loop never completes abruptly, and it leaves the arrays alone. *)
Lemma for_of_versions_never_throws arr : forall input s,
  exists returned w,
    for_of_versions arr input s = (Normal returned, mkStore (heap s) w).
Proof.
  induction arr as [|f arr IH]; intros input s.
  - exists None, (world s). cbn. now rewrite store_eta.
  - destruct (f input (world s)) as [[v|e] w] eqn:Ef.
    + exists (Some v), w. now apply for_of_versions_return.
    + rewrite (for_of_versions_continue f arr input s e w Ef).
      destruct (IH input (mkStore (heap s) w)) as (r & w' & Hr).
      exists r, w'. exact Hr.
Qed.

(** [parseAny], with its loop folded. *)
Lemma parseAny_unfold versions input s :
  parseAny (createVersionedParser versions) input s
  = match for_of_versions (heap s versions) input s with
    | (Normal (Some parsed), s') => (Normal parsed, s')
    | (Normal None, s') => throw_no_match input s'
    | (Throw e, s') => (Throw e, s')
    end.
Proof.
  cbn [parseAny createVersionedParser]. unfold bind at 1. unfold read.
  unfold bind at 1.
  destruct (for_of_versions (heap s versions) input s) as [[[parsed|]|e] s'];
    reflexivity.
Qed.

(** The statement after the loop, evaluated. *)
Lemma throw_no_match_spec {A : Type} input s :
  @throw_no_match W A input s
  = (match ToString input with
     | Normal rendered =>
         Throw (new_Error
                  ("Failed to parse metadata (no version matched): " ++ rendered))
     | Throw e => Throw e
     end, s).
Proof.
  unfold throw_no_match, bind, lift, throw.
  destruct (ToString input); reflexivity.
Qed.

(** When a version returns after the versions before it threw, its value
    is the result, and the store is the one its call left. *)
Lemma parseAny_first_return versions input s pre f post v w :
  heap s versions = pre ++ f :: post ->
  all_reject pre input (world s) = true ->
  f input (attempts pre input (world s)) = (Normal v, w) ->
  parseAny (createVersionedParser versions) input s
  = (Normal v, mkStore (heap s) w).
Proof.
  intros Harr Hrej Hf. rewrite parseAny_unfold, Harr.
  rewrite for_of_versions_skip by exact Hrej.
  erewrite for_of_versions_return by (cbn [world]; exact Hf).
  reflexivity.
Qed.

(** When every version throws, the statement after the loop decides, in
    the store the last failed call left. *)
Lemma parseAny_all_reject versions input s :
  all_reject (heap s versions) input (world s) = true ->
  parseAny (createVersionedParser versions) input s
  = throw_no_match input
      (mkStore (heap s) (attempts (heap s versions) input (world s))).
Proof.
  intros Hrej. rewrite parseAny_unfold.
  rewrite <- (app_nil_r (heap s versions)) at 1.
  rewrite for_of_versions_skip by exact Hrej. reflexivity.
Qed.

(** The lowest index at which a version accepts, when one does. *)
Lemma first_accepting arr : forall input w i,
  accepts_at arr input w i = true ->
  exists k f v w',
    k <= i
    /\ nth_error arr k = Some f
    /\ (forall j, j < k -> accepts_at arr input w j = false)
    /\ all_reject (firstn k arr) input w = true
    /\ f input (attempts (firstn k arr) input w) = (Normal v, w')
    /\ arr = firstn k arr ++ f :: skipn (S k) arr.
Proof.
  induction arr as [|g arr IH]; intros input w i Hacc.
  - unfold accepts_at in Hacc. destruct i; discriminate.
  - destruct (g input w) as [[v|e] w1] eqn:Eg.
    + exists 0, g, v, w1. cbn. repeat split; auto; try lia.
    + destruct i as [|i].
      * unfold accepts_at in Hacc. cbn in Hacc. rewrite Eg in Hacc. discriminate.
      * assert (Hacc' : accepts_at arr input w1 i = true).
        { unfold accepts_at in *. cbn in Hacc. rewrite Eg in Hacc. exact Hacc. }
        destruct (IH input w1 i Hacc') as (k & f & v & w' & Hle & Hnth & Hlow & Hrej & Hf & Hsplit).
        exists (S k), f, v, w'. repeat split.
        -- lia.
        -- exact Hnth.
        -- intros [|j] Hj.
           ++ unfold accepts_at. cbn. now rewrite Eg.
           ++ unfold accepts_at. cbn. rewrite Eg. cbn.
              apply (Hlow j). lia.
        -- cbn. rewrite Eg. cbn. exact Hrej.
        -- cbn. rewrite Eg. cbn. exact Hf.
        -- cbn. f_equal. exact Hsplit.
Qed.

(** [Enumerate] started on the members below [k] ends on the members
    below [N], if the depth allows the [N - k] unfoldings left. *)
Lemma Enumerate_seq depth : forall N k,
  k <= N -> N - k < depth ->
  Enumerate depth N (seq 0 k) = Some (seq 0 N).
Proof.
  induction depth as [|depth IH]; intros N k Hle Hdepth; [lia|].
  cbn [Enumerate]. rewrite length_seq.
  destruct (Nat.eqb k N) eqn:Ek.
  - apply Nat.eqb_eq in Ek. now subst.
  - apply Nat.eqb_neq in Ek. rewrite <- seq_S.
    apply IH; lia.
Qed.

Lemma Exclude_nothing T : Exclude T [] = T.
Proof.
  unfold Exclude. induction T as [|t T IH]; [reflexivity|].
  cbn [filter existsb negb]. f_equal. exact IH.
Qed.

(** [IntRange<0, N>] is the union of the literals below [N]. *)
Lemma IntRange_from_zero depth N :
  N < depth -> IntRange depth 0 N = Some (seq 0 N).
Proof.
  intros Hdepth. unfold IntRange.
  change (@nil nat) with (seq 0 0).
  rewrite (Enumerate_seq depth N 0), (Enumerate_seq depth 0 0) by lia.
  cbn [seq]. now rewrite Exclude_nothing.
Qed.

(** The loop is left without a [return] only when every version threw. *)
Lemma for_of_versions_exhausted arr : forall input s s',
  for_of_versions arr input s = (Normal None, s') ->
  all_reject arr input (world s) = true
  /\ s' = mkStore (heap s) (attempts arr input (world s)).
Proof.
  induction arr as [|f arr IH]; intros input s s' Hloop.
  - cbn in Hloop. injection Hloop as <-. cbn. now rewrite store_eta.
  - destruct (f input (world s)) as [[v|e] w] eqn:Ef.
    + rewrite (for_of_versions_return f arr input s v w Ef) in Hloop.
      discriminate.
    + rewrite (for_of_versions_continue f arr input s e w Ef) in Hloop.
      destruct (IH input _ s' Hloop) as [Hrej Hs'].
      cbn [all_reject attempts]. rewrite Ef. cbn [fst snd is_normal negb andb].
      split; [exact Hrej | exact Hs'].
Qed.

(** Nothing a version throws leaves [parseAny]: when [parseAny] throws,
    every version threw before, and the thrown value is the one the
    statement after the loop throws. *)
Lemma parseAny_throws_only_after_loop versions input s e s' :
  parseAny (createVersionedParser versions) input s = (Throw e, s') ->
  all_reject (heap s versions) input (world s) = true
  /\ @throw_no_match W value input s' = (Throw e, s').
Proof.
  rewrite parseAny_unfold.
  destruct (for_of_versions_never_throws (heap s versions) input s)
    as (returned & w & Hloop).
  rewrite Hloop. destruct returned as [parsed|]; [discriminate|].
  intros Hthrow.
  destruct (for_of_versions_exhausted _ _ _ _ Hloop) as [Hrej _].
  split; [exact Hrej|].
  rewrite throw_no_match_spec in Hthrow. rewrite throw_no_match_spec.
  injection Hthrow as Hc _. f_equal. exact Hc.
Qed.


(** When every version throws and rendering the input throws, the
    rendering's failure is what [parseAny] throws. *)
Lemma parseAny_no_match_unrenderable versions input s e :
  all_reject (heap s versions) input (world s) = true ->
  ToString input = Throw e ->
  parseAny (createVersionedParser versions) input s
  = (Throw e, mkStore (heap s) (attempts (heap s versions) input (world s))).
Proof.
  intros Hrej Hrender. rewrite parseAny_all_reject by exact Hrej.
  rewrite throw_no_match_spec, Hrender. reflexivity.
Qed.

(** On an empty list the loop body never runs: [parseAny] is the
    statement after the loop, in the store of the call. *)
Lemma parseAny_empty_list versions input s :
  heap s versions = [] ->
  parseAny (createVersionedParser versions) input s = throw_no_match input s.
Proof.
  intros Harr. rewrite parseAny_unfold, Harr. reflexivity.
Qed.

(** Calling what indexing gave leaves the arrays alone. *)
Lemma invoke_heap (callee : option (ParseFn W)) input text s :
  heap (snd (invoke callee input text s)) = heap s.
Proof.
  destruct callee as [f|]; cbn [invoke]; [|reflexivity].
  rewrite call_spec. reflexivity.
Qed.

(** No call on the parser writes to an array. *)
Lemma perform_heap versions (o : operation) s :
  heap (snd (perform (createVersionedParser versions) o s)) = heap s.
Proof.
  destruct o as [input|input|versionIndex input|]; cbn [perform].
  - destruct (parseLatest _ input s) as [c s'] eqn:E. cbn [snd].
    change s' with (snd (c, s')). rewrite <- E.
    cbn [parseLatest createVersionedParser]. unfold bind, read.
    apply invoke_heap.
  - destruct (parseAny _ input s) as [c s'] eqn:E. cbn [snd].
    rewrite parseAny_unfold in E.
    destruct (for_of_versions_never_throws (heap s versions) input s)
      as (returned & w & Hloop).
    rewrite Hloop in E. destruct returned as [parsed|].
    + injection E as _ <-. reflexivity.
    + rewrite throw_no_match_spec in E. injection E as _ <-. reflexivity.
  - destruct (parseSpecific _ versionIndex input s) as [c s'] eqn:E. cbn [snd].
    change s' with (snd (c, s')). rewrite <- E.
    cbn [parseSpecific createVersionedParser]. unfold bind, read.
    apply invoke_heap.
  - reflexivity.
Qed.

Lemma run_heap versions (ops : list operation) : forall s,
  heap (snd (run (createVersionedParser versions) ops s)) = heap s.
Proof.
  induction ops as [|o ops IH]; intros s; [reflexivity|].
  cbn [run].
  destruct (perform (createVersionedParser versions) o s) as [seen s1] eqn:E1.
  destruct (run (createVersionedParser versions) ops s1) as [later s2] eqn:E2.
  cbn [snd].
  change s2 with (snd (later, s2)). rewrite <- E2, IH.
  change s1 with (snd (seen, s1)). rewrite <- E1.
  apply perform_heap.
Qed.

(** The registry keeps the caller's reference: what the caller writes to
    the array afterwards is what the registry reads. *)
Lemma registry_shares_the_callers_array versions (arr : list (ParseFn W)) s :
  let s' := snd (caller_writes versions arr s) in
  exists returned,
    fst (getAllParseFns (createVersionedParser versions) s') = Normal returned
    /\ heap s' returned = arr.
Proof.
  exists versions. split; [reflexivity|].
  cbn. now rewrite Nat.eqb_refl.
Qed.

End Properties.

(** ** The operations of the registry *)

Section Operations.

Context {W : Type}.

Implicit Types (s : store W) (f : ParseFn W) (input : value) (versions : loc).

(** C1. When some version of the list accepts the input, [parseAny]
    returns what the version of lowest index among the accepting ones
    returns: the versions below that index were called, in order, and
    threw; the versions above it play no part, whether they would accept
    the input or not. *)
Theorem parseAny_returns_first_accepted versions input s i :
  accepts_at (heap s versions) input (world s) i = true ->
  exists k f v w,
    k <= i
    /\ nth_error (heap s versions) k = Some f
    /\ (forall j, j < k -> accepts_at (heap s versions) input (world s) j = false)
    /\ f input (attempts (firstn k (heap s versions)) input (world s)) = (Normal v, w)
    /\ parseAny (createVersionedParser versions) input s
       = (Normal v, mkStore (heap s) w).
Proof.
  intros Hacc.
  destruct (first_accepting _ _ _ _ Hacc)
    as (k & f & v & w & Hle & Hnth & Hlow & Hrej & Hf & Hsplit).
  exists k, f, v, w. repeat split; auto.
  apply (parseAny_first_return versions input s _ f _ v w Hsplit Hrej Hf).
Qed.

(** C3. On a non-empty list, [parseLatest] is the call of the version at
    index 0 on the input: the same returned value, the same thrown value,
    the same effects, and no other version is called. *)
Theorem parseLatest_is_first_version versions input s f rest :
  heap s versions = f :: rest ->
  parseLatest (createVersionedParser versions) input s = call f input s.
Proof.
  intros Harr. cbn [parseLatest createVersionedParser].
  unfold bind, read. rewrite Harr. reflexivity.
Qed.

(** C4. At a valid index [i], [parseSpecific i] is the call of the
    version at index [i] on the input: the same returned value, the same
    thrown value, the same effects. *)
Theorem parseSpecific_is_indexed_version versions i input s :
  (0 <= i < Z.of_nat (List.length (heap s versions)))%Z ->
  exists f,
    nth_error (heap s versions) (Z.to_nat i) = Some f
    /\ parseSpecific (createVersionedParser versions) i input s = call f input s.
Proof.
  intros [Hlo Hhi].
  destruct (nth_error (heap s versions) (Z.to_nat i)) as [f|] eqn:Enth.
  - exists f. split; [reflexivity|].
    cbn [parseSpecific createVersionedParser]. unfold bind, read, element.
    apply Z.leb_le in Hlo. rewrite Hlo, Enth. reflexivity.
  - apply nth_error_None in Enth. lia.
Qed.

(** [parseSpecific] indexes the array and calls what it finds, with no test
    on the index: at a valid index the element is a version and it is
    called; at any other index the element is [undefined] and the call is
    the engine's call of a non-function. *)
Lemma parseSpecific_by_index versions i input s :
  ((0 <= i < Z.of_nat (List.length (heap s versions)))%Z ->
     exists f,
       element (heap s versions) i = Some f
       /\ parseSpecific (createVersionedParser versions) i input s = call f input s)
  /\ (~ (0 <= i < Z.of_nat (List.length (heap s versions)))%Z ->
        element (heap s versions) i = None
        /\ parseSpecific (createVersionedParser versions) i input s
           = (Throw (TypeError "versions[versionIndex] is not a function"), s)).
Proof.
  split.
  - intros [Hlo Hhi].
    destruct (nth_error (heap s versions) (Z.to_nat i)) as [f|] eqn:Enth.
    + exists f. apply Z.leb_le in Hlo.
      cbn [parseSpecific createVersionedParser]. unfold bind, read, element.
      rewrite Hlo, Enth. split; reflexivity.
    + apply nth_error_None in Enth. lia.
  - intros Hout.
    assert (Hnone : element (heap s versions) i = None).
    { unfold element. destruct (0 <=? i)%Z eqn:Hlo; [|reflexivity].
      apply Z.leb_le in Hlo. apply nth_error_None. lia. }
    split; [exact Hnone|].
    cbn [parseSpecific createVersionedParser]. unfold bind, read.
    rewrite Hnone. reflexivity.
Qed.

(** C7. [getAllParseFns] returns the reference given to
    [createVersionedParser] and touches nothing: the array read through
    what it returns is the array supplied, with the same length and the
    same version at every index. *)
Theorem getAllParseFns_returns_supplied_list versions s :
  exists returned,
    getAllParseFns (createVersionedParser versions) s = (Normal returned, s)
    /\ returned = versions
    /\ heap s returned = heap s versions
    /\ List.length (heap s returned) = List.length (heap s versions)
    /\ forall i, nth_error (heap s returned) i = nth_error (heap s versions) i.
Proof.
  exists versions. repeat split; reflexivity.
Qed.

(** C8. No call on the parser writes to the version list.  After any
    sequence of calls the arrays are what they were, [getAllParseFns]
    returns the same reference to the same list, and any further call
    behaves as on the list of the start (in the world the versions
    themselves have left). *)
Theorem operations_leave_version_list_unchanged versions (ops : list operation) s :
  (forall o, heap (snd (perform (createVersionedParser versions) o s)) = heap s)
  /\ heap (snd (run (createVersionedParser versions) ops s)) = heap s
  /\ fst (getAllParseFns (createVersionedParser versions)
            (snd (run (createVersionedParser versions) ops s)))
     = fst (getAllParseFns (createVersionedParser versions) s)
  /\ heap (snd (run (createVersionedParser versions) ops s)) versions
     = heap s versions
  /\ forall o,
       perform (createVersionedParser versions) o
         (snd (run (createVersionedParser versions) ops s))
       = perform (createVersionedParser versions) o
           (mkStore (heap s)
              (world (snd (run (createVersionedParser versions) ops s)))).
Proof.
  pose proof (run_heap versions ops s) as Hheap.
  split; [intros o; apply perform_heap|].
  split; [exact Hheap|].
  split; [reflexivity|].
  split; [now rewrite Hheap|].
  intros o. rewrite <- Hheap. now rewrite store_eta.
Qed.

(** C10. The first version that returns decides: whatever value it
    returns is the result of [parseAny], unchanged and uninspected
    ([undefined] and [null] included), the store is the one its call
    left, and the versions after it are not called, whatever they are. *)
Theorem parseAny_passes_first_return_through versions input s pre f post v w :
  heap s versions = pre ++ f :: post ->
  all_reject pre input (world s) = true ->
  f input (attempts pre input (world s)) = (Normal v, w) ->
  parseAny (createVersionedParser versions) input s
  = (Normal v, mkStore (heap s) w)
  /\ forall s2 post2,
       heap s2 versions = pre ++ f :: post2 ->
       world s2 = world s ->
       parseAny (createVersionedParser versions) input s2
       = (Normal v, mkStore (heap s2) w).
Proof.
  intros Harr Hrej Hf. split.
  - exact (parseAny_first_return versions input s pre f post v w Harr Hrej Hf).
  - intros s2 post2 Harr2 Hw.
    apply (parseAny_first_return versions input s2 pre f post2 v w Harr2);
      rewrite Hw; assumption.
Qed.

End Operations.

(** ** Inputs that cannot be rendered

    The message of the aggregate failure is built by a template literal,
    which converts the input to a string.  That conversion throws on a
    Symbol and on an object whose [toString] is shadowed by a data property;
    on such an input the statement after the loop throws the conversion's
    TypeError, and no failure saying that no version matched is ever
    built. *)

(** C2. Every version of the three-version registry throws on the object
    [{"toString": 1}], and [parseAny] then throws the TypeError of the
    string conversion instead of the aggregate failure. *)
Theorem parseAny_no_match_on_unrenderable_object :
  all_reject [V3; V2; V1] shadows_toString [] = true
  /\ parseAny (createVersionedParser 0) shadows_toString (with_versions [V3; V2; V1])
     = (Throw (TypeError "Cannot convert object to primitive value"),
        mkStore (heap (with_versions [V3; V2; V1])) ["V3"; "V2"; "V1"]).
Proof. split; reflexivity. Qed.

(** C6. On an empty list and a Symbol input, [parseAny] calls nothing and
    throws at once, but what it throws is the TypeError of the string
    conversion, not the aggregate failure. *)
Theorem parseAny_empty_list_on_symbol :
  parseAny (createVersionedParser 0) (VSymbol "id") (with_versions [])
  = (Throw (TypeError "Cannot convert a Symbol value to a string"),
     with_versions []).
Proof. reflexivity. Qed.

(** C9. A version with a programming error is called on a Symbol: its
    ReferenceError is caught, but the failure that leaves [parseAny] is the
    TypeError of the string conversion, which is no aggregate failure. *)
Theorem parseAny_lets_conversion_failure_escape :
  fst (broken (VSymbol "id") [])
  = Throw (VError "ReferenceError" "schema is not defined")
  /\ fst (parseAny (createVersionedParser 0) (VSymbol "id") (with_versions [broken]))
     = Throw (TypeError "Cannot convert a Symbol value to a string")
  /\ forall message,
       fst (parseAny (createVersionedParser 0) (VSymbol "id") (with_versions [broken]))
       <> Throw (new_Error message).
Proof.
  split; [reflexivity|]. split; [reflexivity|].
  intros message. cbn. discriminate.
Qed.

(** ** The theorems at work on the three-version registry *)

(** [{a: 1, b: 2}] is accepted by V2 and by V1; V2, the newer, decides. *)
Lemma parseAny_returns_first_accepted_witness :
  accepts_at (heap (with_versions [V3; V2; V1]) 0) ab
    (world (with_versions [V3; V2; V1])) 2 = true
  /\ exists k f v w,
       k <= 2
       /\ nth_error (heap (with_versions [V3; V2; V1]) 0) k = Some f
       /\ (forall j, j < k ->
             accepts_at (heap (with_versions [V3; V2; V1]) 0) ab
               (world (with_versions [V3; V2; V1])) j = false)
       /\ f ab (attempts (firstn k (heap (with_versions [V3; V2; V1]) 0)) ab
                  (world (with_versions [V3; V2; V1]))) = (Normal v, w)
       /\ parseAny (createVersionedParser 0) ab (with_versions [V3; V2; V1])
          = (Normal v, mkStore (heap (with_versions [V3; V2; V1])) w).
Proof.
  split; [reflexivity|].
  apply (parseAny_returns_first_accepted 0 ab (with_versions [V3; V2; V1]) 2).
  reflexivity.
Defined.

(** [parseLatest] on [{a: 1, b: 2}] is V3's own failure. *)
Lemma parseLatest_is_first_version_witness :
  heap (with_versions [V3; V2; V1]) 0 = V3 :: [V2; V1]
  /\ parseLatest (createVersionedParser 0) ab (with_versions [V3; V2; V1])
     = call V3 ab (with_versions [V3; V2; V1]).
Proof.
  split; [reflexivity|].
  apply (parseLatest_is_first_version 0 ab (with_versions [V3; V2; V1]) V3 [V2; V1]).
  reflexivity.
Defined.

(** [parseSpecific(1, {a: 1})] is the call of V2. *)
Lemma parseSpecific_is_indexed_version_witness :
  (0 <= 1 < Z.of_nat (List.length (heap (with_versions [V3; V2; V1]) 0%nat)))%Z
  /\ exists f,
       nth_error (heap (with_versions [V3; V2; V1]) 0) (Z.to_nat 1) = Some f
       /\ parseSpecific (createVersionedParser 0) 1 a_only (with_versions [V3; V2; V1])
          = call f a_only (with_versions [V3; V2; V1]).
Proof.
  split; [cbn; lia|].
  apply (parseSpecific_is_indexed_version 0 1 a_only (with_versions [V3; V2; V1])).
  cbn; lia.
Defined.

(** After V3 threw, a version returning [undefined] decides: [undefined] is
    the result and V1, which accepts [{a: 1}], is never called. *)
Lemma parseAny_passes_first_return_through_witness :
  heap (with_versions [V3; returns_undefined; V1]) 0
  = [V3] ++ returns_undefined :: [V1]
  /\ all_reject [V3] a_only (world (with_versions [V3; returns_undefined; V1])) = true
  /\ returns_undefined a_only
       (attempts [V3] a_only (world (with_versions [V3; returns_undefined; V1])))
     = (Normal VUndefined, ["V3"; "returns_undefined"])
  /\ parseAny (createVersionedParser 0) a_only
       (with_versions [V3; returns_undefined; V1])
     = (Normal VUndefined,
        mkStore (heap (with_versions [V3; returns_undefined; V1]))
          ["V3"; "returns_undefined"]).
Proof.
  split; [reflexivity|]. split; [reflexivity|]. split; [reflexivity|].
  apply (parseAny_passes_first_return_through 0 a_only
           (with_versions [V3; returns_undefined; V1])
           [V3] returns_undefined [V1] VUndefined ["V3"; "returns_undefined"]);
    reflexivity.
Defined.

(** ** Further properties of the operations *)

Section Further.

Context {W : Type}.

Implicit Types (s : store W) (f : ParseFn W) (input : value) (versions : loc).

(** Calling one more function after [pre]. *)
Lemma attempts_snoc (pre : list (ParseFn W)) : forall f input w,
  attempts (pre ++ [f]) input w = snd (f input (attempts pre input w)).
Proof.
  induction pre as [|g pre IH]; intros f input w; [reflexivity|].
  cbn [app attempts]. apply IH.
Qed.

(** Functions that leave the world as it is, called in turn, leave it as it
    is. *)
Lemma attempts_effect_free (fs : list (ParseFn W)) input :
  (forall f, In f fs -> forall w, snd (f input w) = w) ->
  forall w, attempts fs input w = w.
Proof.
  induction fs as [|g fs IH]; intros Hfree w; [reflexivity|].
  cbn [attempts]. rewrite (Hfree g (or_introl eq_refl)).
  apply IH. intros f Hin. apply Hfree. now right.
Qed.

(** When the loop is left by [return], a version returned after the
    versions before it threw. *)
Lemma for_of_versions_returned arr : forall input s v s',
  for_of_versions arr input s = (Normal (Some v), s') ->
  exists pre f post w,
    arr = pre ++ f :: post
    /\ all_reject pre input (world s) = true
    /\ f input (attempts pre input (world s)) = (Normal v, w)
    /\ s' = mkStore (heap s) w.
Proof.
  induction arr as [|g arr IH]; intros input s v s' Hloop.
  - cbn in Hloop. discriminate.
  - destruct (g input (world s)) as [[v0|e] w0] eqn:Eg.
    + rewrite (for_of_versions_return g arr input s v0 w0 Eg) in Hloop.
      injection Hloop as <- <-.
      exists [], g, arr, w0. repeat split; auto.
    + rewrite (for_of_versions_continue g arr input s e w0 Eg) in Hloop.
      destruct (IH input _ v s' Hloop) as (pre & f & post & w & Harr & Hrej & Hf & Hs').
      cbn [world heap] in *.
      exists (g :: pre), f, post, w. repeat split.
      * cbn. now rewrite Harr.
      * cbn [all_reject]. rewrite Eg. cbn. exact Hrej.
      * cbn [attempts]. rewrite Eg. cbn. exact Hf.
      * exact Hs'.
Qed.

(** What [parseAny] returns, a version returned. *)
Lemma parseAny_returned versions input s v s' :
  parseAny (createVersionedParser versions) input s = (Normal v, s') ->
  exists pre f post w,
    heap s versions = pre ++ f :: post
    /\ all_reject pre input (world s) = true
    /\ f input (attempts pre input (world s)) = (Normal v, w)
    /\ s' = mkStore (heap s) w.
Proof.
  rewrite parseAny_unfold.
  destruct (for_of_versions (heap s versions) input s) as [[[parsed|]|e] s1] eqn:Eloop.
  - intros H. injection H as -> ->.
    exact (for_of_versions_returned _ _ _ _ _ Eloop).
  - rewrite throw_no_match_spec. destruct (ToString input); discriminate.
  - discriminate.
Qed.

(** X1. On an empty list [parseLatest] calls nothing: [versions[0]] is
    [undefined], calling it throws a TypeError, and the store is as it
    was. *)
Theorem parseLatest_on_empty_list versions input s :
  heap s versions = [] ->
  parseLatest (createVersionedParser versions) input s
  = (Throw (TypeError "versions[0] is not a function"), s).
Proof.
  intros Harr. cbn [parseLatest createVersionedParser].
  unfold bind, read. rewrite Harr. reflexivity.
Qed.

(** X2. On a non-empty list [parseLatest] and [parseSpecific] at index 0
    are the same computation. *)
Theorem parseLatest_is_parseSpecific_zero versions input s :
  heap s versions <> [] ->
  parseLatest (createVersionedParser versions) input s
  = parseSpecific (createVersionedParser versions) 0 input s.
Proof.
  intros Hne. cbn [parseLatest parseSpecific createVersionedParser].
  unfold bind, read. destruct (heap s versions) as [|f rest]; [congruence|].
  reflexivity.
Qed.

(** X4. [parseAny] never returns a value of its own: what it returns is
    what one version of the list returned, called after every version before
    it had been called and had thrown; the arrays are untouched. *)
Theorem parseAny_returns_only_what_a_version_returned versions input s v s' :
  parseAny (createVersionedParser versions) input s = (Normal v, s') ->
  exists pre f post,
    heap s versions = pre ++ f :: post
    /\ all_reject pre input (world s) = true
    /\ f input (attempts pre input (world s)) = (Normal v, world s')
    /\ heap s' = heap s.
Proof.
  intros Hret.
  destruct (parseAny_returned versions input s v s' Hret)
    as (pre & f & post & w & Harr & Hrej & Hf & ->).
  exists pre, f, post. repeat split; assumption.
Qed.

(** X5. [parseAny] never gives up early: when it throws, every version of
    the list was called, in order, and threw; the thrown value is the
    [Error] built from the rendering of the input, or the failure of that
    rendering, and nothing else. *)
Theorem parseAny_throws_after_every_version_threw versions input s e s' :
  parseAny (createVersionedParser versions) input s = (Throw e, s') ->
  all_reject (heap s versions) input (world s) = true
  /\ s' = mkStore (heap s) (attempts (heap s versions) input (world s))
  /\ (forall rendered,
        ToString input = Normal rendered ->
        e = new_Error ("Failed to parse metadata (no version matched): " ++ rendered))
  /\ (forall x, ToString input = Throw x -> e = x).
Proof.
  intros Hthrow.
  destruct (parseAny_throws_only_after_loop versions input s e s' Hthrow)
    as [Hrej Hafter].
  rewrite (parseAny_all_reject versions input s Hrej) in Hthrow.
  rewrite throw_no_match_spec in Hthrow. injection Hthrow as Hc Hs.
  split; [exact Hrej|]. split; [now rewrite Hs|].
  split.
  - intros rendered Hr. rewrite Hr in Hc. now injection Hc as <-.
  - intros x Hx. rewrite Hx in Hc. now injection Hc as <-.
Qed.


(** The store [parseAny] leaves: the versions called form a prefix of the
    list. *)
Lemma parseAny_store versions input s :
  exists called rest,
    heap s versions = called ++ rest
    /\ snd (parseAny (createVersionedParser versions) input s)
       = mkStore (heap s) (attempts called input (world s)).
Proof.
  destruct (parseAny (createVersionedParser versions) input s) as [[v|e] s'] eqn:Eany.
  - destruct (parseAny_returned versions input s v s' Eany)
      as (pre & f & post & w & Harr & Hrej & Hf & ->).
    exists (pre ++ [f]), post. split.
    + rewrite Harr, <- app_assoc. reflexivity.
    + cbn [snd]. rewrite attempts_snoc, Hf. reflexivity.
  - destruct (parseAny_throws_only_after_loop versions input s e s' Eany)
      as [Hrej _].
    rewrite (parseAny_all_reject versions input s Hrej) in Eany.
    rewrite throw_no_match_spec in Eany. injection Eany as _ <-.
    exists (heap s versions), []. split; [now rewrite app_nil_r | reflexivity].
Qed.

(** X7. [parseAny] has no effect of its own: the store it leaves is the
    store of the call in which a prefix of the list was called, each version
    once and in order. *)
Theorem parseAny_effects_are_calls_of_a_prefix versions input s :
  exists called rest,
    heap s versions = called ++ rest
    /\ snd (parseAny (createVersionedParser versions) input s)
       = mkStore (heap s) (attempts called input (world s)).
Proof.
  exact (parseAny_store versions input s).
Qed.

(** X8. When no version of the list acts on the world for this input,
    [parseAny] leaves the store exactly as it found it, so that asking again
    gives the same answer. *)
Theorem parseAny_repeatable_when_versions_effect_free versions input s :
  (forall f, In f (heap s versions) -> forall w, snd (f input w) = w) ->
  snd (parseAny (createVersionedParser versions) input s) = s
  /\ parseAny (createVersionedParser versions) input
       (snd (parseAny (createVersionedParser versions) input s))
     = parseAny (createVersionedParser versions) input s.
Proof.
  intros Hfree.
  assert (Hsame : snd (parseAny (createVersionedParser versions) input s) = s).
  { destruct (parseAny_store versions input s)
      as (called & rest & Harr & Hs).
    rewrite Hs, attempts_effect_free; [apply store_eta|].
    intros f Hin. apply Hfree. rewrite Harr. apply in_or_app. now left. }
  split; [exact Hsame | now rewrite Hsame].
Qed.

(** X9. Appending older versions to the list changes nothing for an input
    that was accepted: the same value is returned, by the same calls. *)
Theorem parseAny_stable_under_appended_versions versions input s v s' s2 older :
  parseAny (createVersionedParser versions) input s = (Normal v, s') ->
  heap s2 versions = heap s versions ++ older ->
  world s2 = world s ->
  parseAny (createVersionedParser versions) input s2
  = (Normal v, mkStore (heap s2) (world s')).
Proof.
  intros Hret Harr2 Hw.
  destruct (parseAny_returned versions input s v s' Hret)
    as (pre & f & post & w & Harr & Hrej & Hf & ->).
  cbn [world].
  apply (parseAny_first_return versions input s2 pre f (post ++ older) v w).
  - rewrite Harr2, Harr, <- app_assoc. reflexivity.
  - now rewrite Hw.
  - now rewrite Hw.
Qed.

(** X10. For versions that do not act on the world, [parseAny] accepts
    exactly the inputs that some version of the list accepts: it returns if
    and only if some version, called on the input as the loop calls it,
    returns. *)
Theorem parseAny_accepts_iff_some_version_accepts versions input s :
  (forall f, In f (heap s versions) -> forall w, snd (f input w) = w) ->
  is_normal (fst (parseAny (createVersionedParser versions) input s)) = true
  <-> exists f,
        In f (heap s versions)
        /\ is_normal (fst (f input (world s))) = true.
Proof.
  intros Hfree. split.
  - intros Hany.
    destruct (parseAny (createVersionedParser versions) input s) as [[v|e] s'] eqn:Eany;
      [|discriminate].
    destruct (parseAny_returned versions input s v s' Eany)
      as (pre & f & post & w & Harr & Hrej & Hf & ->).
    rewrite attempts_effect_free in Hf.
    2:{ intros g Hin. apply Hfree. rewrite Harr. apply in_or_app. now left. }
    exists f. split.
    + rewrite Harr. apply in_or_app. right. now left.
    + now rewrite Hf.
  - intros (f & Hin & Hf).
    destruct (In_nth_error _ _ Hin) as [i Hnth].
    assert (Hacc : accepts_at (heap s versions) input (world s) i = true).
    { unfold accepts_at. rewrite Hnth. rewrite attempts_effect_free; [exact Hf|].
      intros g Hg. apply Hfree.
      rewrite <- (firstn_skipn i (heap s versions)).
      apply in_or_app. now left. }
    destruct (first_accepting _ _ _ _ Hacc)
      as (k & g & v & w & _ & _ & _ & Hrej & Hg & Hsplit).
    rewrite (parseAny_first_return versions input s _ g _ v w Hsplit Hrej Hg).
    reflexivity.
Qed.

End Further.

(** ** The index type in general *)

(** [Enumerate] leaves out nothing below its bound. *)
Lemma Exclude_seq (T F : nat) (n : nat) :
  In n (Exclude (seq 0 T) (seq 0 F)) <-> F <= n < T.
Proof.
  unfold Exclude. rewrite filter_In, in_seq, negb_true_iff.
  split.
  - intros [HT Hnot]. split; [|lia].
    destruct (Nat.lt_ge_cases n F) as [Hlt|Hge]; [|exact Hge].
    exfalso. apply not_true_iff_false in Hnot. apply Hnot.
    apply existsb_exists. exists n. split; [apply in_seq; lia|apply Nat.eqb_refl].
  - intros [HF HT]. split; [lia|].
    apply not_true_iff_false. intros Hex.
    apply existsb_exists in Hex as (m & Hm & Heq).
    apply Nat.eqb_eq in Heq. apply in_seq in Hm. lia.
Qed.

(** X11. Within the unfolding depth, [IntRange<F, T>] is the union of the
    literals from [F] inclusive to [T] exclusive, and it is empty ([never])
    when [T] does not exceed [F]. *)
Theorem IntRange_members depth F T n :
  F < depth -> T < depth ->
  exists range,
    IntRange depth F T = Some range
    /\ (In n range <-> F <= n < T)
    /\ (T <= F -> range = []).
Proof.
  intros HF HT. unfold IntRange.
  change (@nil nat) with (seq 0 0).
  rewrite (Enumerate_seq depth T 0), (Enumerate_seq depth F 0) by lia.
  exists (Exclude (seq 0 T) (seq 0 F)). split; [reflexivity|]. split.
  - apply Exclude_seq.
  - intros Hle. destruct (Exclude (seq 0 T) (seq 0 F)) as [|m l] eqn:E; [reflexivity|].
    assert (Hin : In m (Exclude (seq 0 T) (seq 0 F))) by (rewrite E; now left).
    apply Exclude_seq in Hin. lia.
Qed.

(** ** The further properties at work *)

Lemma parseLatest_on_empty_list_witness :
  heap (with_versions []) 0 = []
  /\ parseLatest (createVersionedParser 0) ab (with_versions [])
     = (Throw (TypeError "versions[0] is not a function"), with_versions []).
Proof.
  split; [reflexivity|].
  apply (parseLatest_on_empty_list 0 ab (with_versions [])). reflexivity.
Defined.

Lemma parseLatest_is_parseSpecific_zero_witness :
  heap (with_versions [V3; V2; V1]) 0 <> []
  /\ parseLatest (createVersionedParser 0) ab (with_versions [V3; V2; V1])
     = parseSpecific (createVersionedParser 0) 0 ab (with_versions [V3; V2; V1]).
Proof.
  split; [cbn; discriminate|].
  apply (parseLatest_is_parseSpecific_zero 0 ab (with_versions [V3; V2; V1])).
  cbn; discriminate.
Defined.

Lemma parseAny_returns_only_what_a_version_returned_witness :
  parseAny (createVersionedParser 0) ab (with_versions [V3; V2; V1])
  = (Normal ab, mkStore (heap (with_versions [V3; V2; V1])) ["V3"; "V2"])
  /\ exists pre f post,
       heap (with_versions [V3; V2; V1]) 0 = pre ++ f :: post
       /\ all_reject pre ab (world (with_versions [V3; V2; V1])) = true
       /\ f ab (attempts pre ab (world (with_versions [V3; V2; V1])))
          = (Normal ab, ["V3"; "V2"])
       /\ heap (mkStore (heap (with_versions [V3; V2; V1])) ["V3"; "V2"])
          = heap (with_versions [V3; V2; V1]).
Proof.
  split; [reflexivity|].
  apply (parseAny_returns_only_what_a_version_returned 0 ab
           (with_versions [V3; V2; V1]) ab
           (mkStore (heap (with_versions [V3; V2; V1])) ["V3"; "V2"])).
  reflexivity.
Defined.

Lemma parseAny_throws_after_every_version_threw_witness :
  parseAny (createVersionedParser 0) empty_object (with_versions [V3; V2; V1])
  = (Throw (new_Error "Failed to parse metadata (no version matched): [object Object]"),
     mkStore (heap (with_versions [V3; V2; V1])) ["V3"; "V2"; "V1"])
  /\ all_reject (heap (with_versions [V3; V2; V1]) 0) empty_object
       (world (with_versions [V3; V2; V1])) = true.
Proof.
  split; [reflexivity|].
  apply (parseAny_throws_after_every_version_threw 0 empty_object
           (with_versions [V3; V2; V1])
           (new_Error "Failed to parse metadata (no version matched): [object Object]")
           (mkStore (heap (with_versions [V3; V2; V1])) ["V3"; "V2"; "V1"])).
  reflexivity.
Defined.


Lemma parseAny_repeatable_when_versions_effect_free_witness :
  (forall f, In f (heap (with_versions [C3only; C2only; C1only]) 0) ->
             forall w, snd (f ab w) = w)
  /\ snd (parseAny (createVersionedParser 0) ab
            (with_versions [C3only; C2only; C1only]))
     = with_versions [C3only; C2only; C1only].
Proof.
  assert (Hfree : forall f,
             In f (heap (with_versions [C3only; C2only; C1only]) 0) ->
             forall w, snd (f ab w) = w).
  { intros f [<-|[<-|[<-|[]]]] w; reflexivity. }
  split; [exact Hfree|].
  apply (parseAny_repeatable_when_versions_effect_free 0 ab
           (with_versions [C3only; C2only; C1only]) Hfree).
Defined.

Lemma parseAny_stable_under_appended_versions_witness :
  parseAny (createVersionedParser 0) ab (with_versions [V3; V2])
  = (Normal ab, mkStore (heap (with_versions [V3; V2])) ["V3"; "V2"])
  /\ heap (with_versions [V3; V2; V1]) 0 = heap (with_versions [V3; V2]) 0 ++ [V1]
  /\ world (with_versions [V3; V2; V1]) = world (with_versions [V3; V2])
  /\ parseAny (createVersionedParser 0) ab (with_versions [V3; V2; V1])
     = (Normal ab, mkStore (heap (with_versions [V3; V2; V1])) ["V3"; "V2"]).
Proof.
  split; [reflexivity|]. split; [reflexivity|]. split; [reflexivity|].
  apply (parseAny_stable_under_appended_versions 0 ab (with_versions [V3; V2]) ab
           (mkStore (heap (with_versions [V3; V2])) ["V3"; "V2"])
           (with_versions [V3; V2; V1]) [V1]); reflexivity.
Defined.

Lemma parseAny_accepts_iff_some_version_accepts_witness :
  (forall f, In f (heap (with_versions [C3only; C2only; C1only]) 0) ->
             forall w, snd (f a_only w) = w)
  /\ (is_normal (fst (parseAny (createVersionedParser 0) a_only
                        (with_versions [C3only; C2only; C1only]))) = true
      <-> exists f,
            In f (heap (with_versions [C3only; C2only; C1only]) 0)
            /\ is_normal
                 (fst (f a_only (world (with_versions [C3only; C2only; C1only]))))
               = true).
Proof.
  assert (Hfree : forall f,
             In f (heap (with_versions [C3only; C2only; C1only]) 0) ->
             forall w, snd (f a_only w) = w).
  { intros f [<-|[<-|[<-|[]]]] w; reflexivity. }
  split; [exact Hfree|].
  apply (parseAny_accepts_iff_some_version_accepts 0 a_only
           (with_versions [C3only; C2only; C1only]) Hfree).
Defined.

Lemma IntRange_members_witness :
  2 < 1000 /\ 5 < 1000
  /\ exists range,
       IntRange 1000 2 5 = Some range
       /\ (In 3 range <-> 2 <= 3 < 5)
       /\ (5 <= 2 -> range = []).
Proof.
  split; [lia|]. split; [lia|].
  apply (IntRange_members 1000 2 5 3); lia.
Defined.

(** ** The index of [parseSpecific], statically and at run time *)

(** C5. On the three-version registry the call [parseSpecific(3, input)]
    passes the type checker, for the bound of [VN] is [number] and every
    number literal extends it; the restriction to the valid indices 0, 1
    and 2 bounds [VI] in [SpecificVersion] only, which 3 does not extend.
    At run time the index is not tested either: [versions[3]] is
    [undefined], and calling it throws the engine's TypeError with no
    version called. *)
Theorem parseSpecific_index_not_bounded_statically :
  literal_extends 3 parseSpecific_VN = true
  /\ SpecificVersion_VI 1000 [V3; V2; V1] = Some (Bliterals [0; 1; 2])
  /\ literal_extends 3 (Bliterals [0; 1; 2]) = false
  /\ element [V3; V2; V1] 3 = None
  /\ parseSpecific (createVersionedParser 0) 3 a_only (with_versions [V3; V2; V1])
     = (Throw (TypeError "versions[versionIndex] is not a function"),
        with_versions [V3; V2; V1]).
Proof.
  split; [reflexivity|].
  split; [unfold SpecificVersion_VI, SpecificVersion_index;
          rewrite IntRange_from_zero by (cbn; lia); reflexivity|].
  repeat split; reflexivity.
Qed.

(** X12. At an index that is not a position of the list (negative, or the
    length and beyond) [parseSpecific] calls no version: the element is
    [undefined], the call throws a TypeError, and the store is as it was. *)
Theorem parseSpecific_out_of_range {W : Type} (versions : loc) (i : Z)
  (input : value) (s : store W) :
  ~ (0 <= i < Z.of_nat (List.length (heap s versions)))%Z ->
  parseSpecific (createVersionedParser versions) i input s
  = (Throw (TypeError "versions[versionIndex] is not a function"), s).
Proof.
  intros Hout.
  apply (proj2 (parseSpecific_by_index versions i input s) Hout).
Qed.

Lemma parseSpecific_out_of_range_witness :
  ~ (0 <= -1 < Z.of_nat (List.length (heap (with_versions [V3; V2; V1]) 0%nat)))%Z
  /\ parseSpecific (createVersionedParser 0) (-1) a_only (with_versions [V3; V2; V1])
     = (Throw (TypeError "versions[versionIndex] is not a function"),
        with_versions [V3; V2; V1]).
Proof.
  split; [cbn; lia|].
  apply (parseSpecific_out_of_range 0 (-1) a_only (with_versions [V3; V2; V1])).
  cbn; lia.
Defined.
